(** * Canvas-aspect store: selectors and reconciliation

    Verification of [planner/src/app/root-store/canvas-aspect-store/selectors.ts]
    (the SelectorLayer) together with the EntityStore / PendingSet /
    ReconciliationEngine contract the selectors read from.

    JavaScript values are embedded as follows:
    - a string-keyed object used as a dictionary is a [gmap string _];
      indexing a missing key yields [undefined], embedded as [None];
    - an array is a [list]; an array element that may be [undefined] is an
      [option];
    - an expression that may raise is a [Completion]. *)

From stdpp Require Import base option list strings gmap.

Open Scope string_scope.
Open Scope list_scope.

(** ** Data model *)

(** Modelled from the spec: the [CanvasAspect] interface of [../../models] is
    not among the sources.  The selectors only read [id]; [revision] and
    [payload] follow section 3 of the specification ([revision] is absent on
    tentative aspects, [payload] is opaque). *)
Module CanvasAspect.
Record t : Type := mk {
  id : string;
  revision : option N;
  payload : string
}.
End CanvasAspect.

Global Instance CanvasAspect_eq_dec : EqDecision CanvasAspect.t.
Proof. solve_decision. Defined.

(** Modelled from the spec: [State] of [./state] is not among the sources.
    It extends the entity adapter's [EntityState<CanvasAspect>]
    ([ids] in store order and the [entities] dictionary) with the [addedIds]
    array that [selectAddedCanvasAspects] maps over. *)
Record State : Type := mkState {
  ids : list string;
  entities : gmap string CanvasAspect.t;
  addedIds : list string
}.

Definition initialState : State :=
  {| ids := []; entities := ∅; addedIds := [] |}.

(** ** JavaScript results *)

Inductive JsValue : Type :=
| JsNull
| JsUndefined
| JsObject (a : CanvasAspect.t).

Inductive JsError : Type :=
| TypeError.

Inductive Completion (A : Type) : Type :=
| Normal (v : A)
| Throw (e : JsError).
Arguments Normal {A} v.
Arguments Throw {A} e.

(** The argument handed to the projector of [selectCanvasAspectById]: an array
    (always truthy, even when empty) or one of the two falsy absent values. *)
Inductive AspectArray : Type :=
| ArrNull
| ArrUndefined
| Arr (items : list (option CanvasAspect.t)).

(** [a === b] on the values a caller of the by-id selector can receive. *)
Definition strictEquals (a b : JsValue) : bool :=
  match a, b with
  | JsNull, JsNull => true
  | JsUndefined, JsUndefined => true
  | JsObject x, JsObject y => bool_decide (x = y)
  | _, _ => false
  end.

(** ** Selectors *)

(** Modelled from the spec: [featureAdapter] of [./state] is not among the
    sources.  [getSelectors(...).selectAll] of an entity adapter reads the
    ordered [ids] and looks each one up in [entities]
    ([ids.map(id => entities[id])]); section 4.1 of the specification calls it
    [getAll()], the ordered sequence of aspects by insertion order. *)
Definition selectAllCanvasAspectItems (s : State) : list (option CanvasAspect.t) :=
  (λ i, entities s !! i) <$> ids s.

(** [allCanvasAspects.find(p => p.id === id)]: the first element satisfying the
    predicate, [undefined] when the array is exhausted; reading [.id] of an
    [undefined] element raises a [TypeError]. *)
Fixpoint find (i : string) (l : list (option CanvasAspect.t)) : Completion JsValue :=
  match l with
  | [] => Normal JsUndefined
  | None :: _ => Throw TypeError
  | Some p :: l' =>
      if bool_decide (CanvasAspect.id p = i) then Normal (JsObject p)
      else find i l'
  end.

(** The projector of [selectCanvasAspectById(id)]. *)
Definition canvasAspectByIdProjector (i : string) (allCanvasAspects : AspectArray)
  : Completion JsValue :=
  match allCanvasAspects with
  | Arr items => find i items
  | ArrNull | ArrUndefined => Normal JsNull
  end.

Definition selectCanvasAspectById (i : string) (s : State) : Completion JsValue :=
  canvasAspectByIdProjector i (Arr (selectAllCanvasAspectItems s)).

Definition selectAddedCanvasAspects (s : State) : list (option CanvasAspect.t) :=
  (λ i, entities s !! i) <$> addedIds s.

(** The "pending aspects" view as the specification words it: the subsequence
    of "all aspects" made of the aspects whose id is in the pending set. *)
Definition idInPendingSet (s : State) (e : option CanvasAspect.t) : bool :=
  match e with
  | Some a => bool_decide (CanvasAspect.id a ∈ addedIds s)
  | None => false
  end.

Definition pendingAspectsSpec (s : State) : list (option CanvasAspect.t) :=
  filter (λ e, idInPendingSet s e) (selectAllCanvasAspectItems s).

(** ** Selectors on the root store object

    The exported selectors receive the root store object and reach the
    feature slice through [selectCanvasAspectState]. *)
Module Root.

(** The root object as far as this file reads it: the value under its
    ['canvasAspect'] key, [undefined] (here [None]) while the feature is not
    registered. *)
Record AppState : Type := mkAppState {
  canvasAspect : option State
}.

(** [createFeatureSelector<State>('canvasAspect')]: the property read
    [state['canvasAspect']]. *)
Definition selectCanvasAspectState (r : AppState) : option State :=
  canvasAspect r.

(** [featureAdapter.getSelectors(selectCanvasAspectState).selectAll]: the
    adapter reads [.ids] and [.entities] of the slice, which raises a
    [TypeError] when the slice is [undefined]. *)
Definition selectAllCanvasAspectItems (r : AppState)
  : Completion (list (option CanvasAspect.t)) :=
  match selectCanvasAspectState r with
  | Some s => Normal (selectAllCanvasAspectItems s)
  | None => Throw TypeError
  end.

(** [createSelector(selectAllCanvasAspectItems, projector)]: the projector is
    applied to what the input selector returned; an exception of the input
    selector propagates. *)
Definition selectCanvasAspectById (i : string) (r : AppState) : Completion JsValue :=
  match selectAllCanvasAspectItems r with
  | Normal all => canvasAspectByIdProjector i (Arr all)
  | Throw e => Throw e
  end.

(** [createSelector(selectCanvasAspectState, state => state.addedIds.map(...))]:
    reading [.addedIds] of an [undefined] slice raises a [TypeError]. *)
Definition selectAddedCanvasAspects (r : AppState)
  : Completion (list (option CanvasAspect.t)) :=
  match selectCanvasAspectState r with
  | Some s => Normal (selectAddedCanvasAspects s)
  | None => Throw TypeError
  end.

End Root.

(** ** Selectors as state-passing computations

    The same three selectors, written against an explicit store so that what
    they do to it can be stated: a computation receives the store and hands
    back its result together with the store it leaves behind.  The caches of
    [createSelector] live outside the store and are not part of it. *)
Module Threaded.

Definition Sel (R : Type) : Type := State → R * State.

Definition ret {R : Type} (r : R) : Sel R := λ s, (r, s).

Definition bind {R Q : Type} (m : Sel R) (k : R → Sel Q) : Sel Q :=
  λ s, let '(r, s') := m s in k r s'.

(** The property reads the selectors perform. *)
Definition readIds : Sel (list string) := λ s, (ids s, s).
Definition readAddedIds : Sel (list string) := λ s, (addedIds s, s).
Definition readEntity (i : string) : Sel (option CanvasAspect.t) :=
  λ s, (entities s !! i, s).

(** [Array.prototype.map]: calls the callback on each element, left to
    right, and collects the results in a fresh array. *)
Fixpoint arrayMap {X Y : Type} (f : X → Sel Y) (l : list X) : Sel (list Y) :=
  match l with
  | [] => ret []
  | x :: l' => bind (f x) (λ y, bind (arrayMap f l') (λ ys, ret (y :: ys)))
  end.

Definition selectAllCanvasAspectItems : Sel (list (option CanvasAspect.t)) :=
  bind readIds (arrayMap readEntity).

Definition selectCanvasAspectById (i : string) : Sel (Completion JsValue) :=
  bind selectAllCanvasAspectItems
       (λ all, ret (canvasAspectByIdProjector i (Arr all))).

Definition selectAddedCanvasAspects : Sel (list (option CanvasAspect.t)) :=
  bind readAddedIds (arrayMap readEntity).

End Threaded.

(** ** EntityStore and PendingSet operations *)

(** Modelled from the spec: the reducer that maintains the store is not among
    the sources.  [upsert] follows section 4.1: it inserts when the id is
    absent (appended to the order) and replaces in place when it is present
    (order preserved). *)
Definition upsert (a : CanvasAspect.t) (s : State) : State :=
  {| ids := if bool_decide (CanvasAspect.id a ∈ ids s) then ids s
            else ids s ++ [CanvasAspect.id a];
     entities := <[CanvasAspect.id a := a]> (entities s);
     addedIds := addedIds s |}.

(** Modelled from the spec: [remove] of section 4.1, idempotent; removing an
    absent id changes nothing. *)
Definition remove (i : string) (s : State) : State :=
  {| ids := filter (λ j, j ≠ i) (ids s);
     entities := delete i (entities s);
     addedIds := addedIds s |}.

(** Modelled from the spec: the PendingSet of section 3 is a set of ids; it is
    kept in the [addedIds] array without repetition. *)
Definition addPending (i : string) (s : State) : State :=
  {| ids := ids s;
     entities := entities s;
     addedIds := if bool_decide (i ∈ addedIds s) then addedIds s
                 else addedIds s ++ [i] |}.

(** Modelled from the spec: an id leaving the PendingSet (section 3). *)
Definition removePending (i : string) (s : State) : State :=
  {| ids := ids s;
     entities := entities s;
     addedIds := filter (λ j, j ≠ i) (addedIds s) |}.

(** Modelled from the spec: lifecycle step 2 of section 3, "swaps the entry's
    id in EntityStore (rekeying, not duplicating)".  The entry keeps its
    position; when the canonical id already sits at another position the
    tentative entry is dropped and the canonical one replaced in place, so
    that no two positions carry the same id. *)
Definition rekey (correlationId : string) (a : CanvasAspect.t) (s : State) : State :=
  if bool_decide (CanvasAspect.id a ≠ correlationId ∧ CanvasAspect.id a ∈ ids s)
  then upsert a (remove correlationId s)
  else {| ids := (λ j, if bool_decide (j = correlationId)
                       then CanvasAspect.id a else j) <$> ids s;
          entities := <[CanvasAspect.id a := a]> (delete correlationId (entities s));
          addedIds := addedIds s |}.

(** ** Reconciliation engine *)

(** Modelled from the spec: a canonical aspect as the backend sends it
    (section 6: the backend assigns canonical ids and revisions). *)
Record CanonicalAspect : Type := mkCanonical {
  canonicalId : string;
  canonicalRevision : N;
  canonicalPayload : string
}.

Definition toAspect (c : CanonicalAspect) : CanvasAspect.t :=
  {| CanvasAspect.id := canonicalId c;
     CanvasAspect.revision := Some (canonicalRevision c);
     CanvasAspect.payload := canonicalPayload c |}.

(** Modelled from the spec: the body of a [RemoteChange] message of section 6,
    [RemoteChange(aspect | deletion(id))].  Section 4.2 orders every remote
    change, deletes included, by the revision the backend assigned to it, so
    a deletion carries that revision next to the id. *)
Inductive RemoteBody : Type :=
| aspect (c : CanonicalAspect)
| deletion (i : string) (deletedAt : N).

Definition bodyId (b : RemoteBody) : string :=
  match b with
  | aspect c => canonicalId c
  | deletion i _ => i
  end.

Definition bodyRevision (b : RemoteBody) : N :=
  match b with
  | aspect c => canonicalRevision c
  | deletion _ r => r
  end.

(** Modelled from the spec: the operations of sections 3 and 4.2 on a client
    session: a local create, a local deletion, and the three event kinds the
    engine consumes from the channel. *)
Inductive Event : Type :=
| LocalCreate (tentativeId : string) (payload : string)
| LocalDelete (i : string)
| Ack (correlationId : string) (canonical : CanonicalAspect)
| Reject (correlationId : string) (reason : string)
| RemoteChange (body : RemoteBody).

(** Modelled from the spec: the session owns the EntityStore and PendingSet
    (the [State] the selectors read) and, per section 4.2, the confirmed base
    kept underneath an aspect that carries a pending local edit. *)
Record Session : Type := mkSession {
  state : State;
  confirmed : gmap string CanvasAspect.t
}.

Definition initialSession : Session :=
  {| state := initialState; confirmed := ∅ |}.

(** Modelled from the spec: lifecycle step 1, "inserted into EntityStore with
    a tentative id, id inserted into PendingSet". *)
Definition localCreate (t p : string) (σ : Session) : Session :=
  {| state := addPending t (upsert (CanvasAspect.mk t None p) (state σ));
     confirmed := confirmed σ |}.

(** Modelled from the spec: lifecycle step 5, "removes the id from both
    EntityStore and PendingSet unconditionally"; also the rollback of step 3
    and the effect of a remote delete that wins the revision comparison. *)
Definition purge (i : string) (σ : Session) : Session :=
  {| state := removePending i (remove i (state σ));
     confirmed := delete i (confirmed σ) |}.

(** Modelled from the spec: [Ack] of section 4.2.  An unknown correlation id
    is a no-op (section 7); otherwise the entry is rekeyed or replaced by the
    canonical aspect and the correlation id leaves the PendingSet.  Local
    re-edits of an entry already sent are not among the operations modelled
    here, so an entry that still exists is unmodified since it was sent. *)
Definition ack (correlationId : string) (c : CanonicalAspect) (σ : Session) : Session :=
  match entities (state σ) !! correlationId with
  | None => σ
  | Some _ =>
      {| state := removePending correlationId
                    (rekey correlationId (toAspect c) (state σ));
         confirmed := delete correlationId (confirmed σ) |}
  end.

(** Modelled from the spec: "retain the last-known-canonical server state"
    of section 4.2: the entry of a rejected update is put back to the confirmed
    base, in place. *)
Definition restore (i : string) (b : CanvasAspect.t) (s : State) : State :=
  {| ids := ids s;
     entities := <[i := b]> (entities s);
     addedIds := addedIds s |}.

(** Modelled from the spec: [Reject] of section 4.2.  A rejected create (the
    entry is tentative: it has no revision) is rolled back; a rejected update
    keeps the last canonical state known for the id. *)
Definition reject (correlationId : string) (σ : Session) : Session :=
  match entities (state σ) !! correlationId with
  | None => σ
  | Some a =>
      match CanvasAspect.revision a with
      | None => purge correlationId σ
      | Some _ =>
          {| state := removePending correlationId
                        (match confirmed σ !! correlationId with
                         | Some b => restore correlationId b (state σ)
                         | None => state σ
                         end);
             confirmed := delete correlationId (confirmed σ) |}
      end
  end.

(** Modelled from the spec: the conflict rule of section 4.2, last writer wins
    by revision: the incoming revision must be strictly greater than the one
    stored, or nothing with a revision is stored. *)
Definition newerThan (stored : option CanvasAspect.t) (c : CanonicalAspect) : bool :=
  match stored ≫= CanvasAspect.revision with
  | Some r => bool_decide (r < canonicalRevision c)%N
  | None => true
  end.

(** Modelled from the spec: [RemoteChange] carrying an aspect (section 4.2).
    With a pending local edit on the same id the change goes to the confirmed
    base and the EntityStore keeps the pending edit; otherwise it is upserted
    when newer. *)
Definition remoteUpsert (c : CanonicalAspect) (σ : Session) : Session :=
  let i := canonicalId c in
  if bool_decide (i ∈ addedIds (state σ)) then
    let base := match confirmed σ !! i with
                | Some b => Some b
                | None => entities (state σ) !! i
                end in
    if newerThan base c
    then {| state := state σ; confirmed := <[i := toAspect c]> (confirmed σ) |}
    else σ
  else
    if newerThan (entities (state σ) !! i) c
    then {| state := upsert (toAspect c) (state σ); confirmed := confirmed σ |}
    else σ.

(** Modelled from the spec: the conflict rule of section 4.2 for a bare
    revision, as a remote delete carries it. *)
Definition newerRevisionThan (stored : option CanvasAspect.t) (r : N) : bool :=
  match stored ≫= CanvasAspect.revision with
  | Some r0 => bool_decide (r0 < r)%N
  | None => true
  end.

(** Modelled from the spec: [RemoteChange] carrying a deletion (section 4.2,
    "apply it (upsert or remove for deletes)" when the revision is strictly
    greater).  With a pending local edit on the same id the delete goes to the
    confirmed base only and the EntityStore keeps the pending edit; otherwise
    the entry is removed when the delete is newer. *)
Definition remoteDelete (i : string) (r : N) (σ : Session) : Session :=
  if bool_decide (i ∈ addedIds (state σ)) then
    let base := match confirmed σ !! i with
                | Some b => Some b
                | None => entities (state σ) !! i
                end in
    if newerRevisionThan base r
    then {| state := state σ; confirmed := delete i (confirmed σ) |}
    else σ
  else
    if newerRevisionThan (entities (state σ) !! i) r
    then purge i σ
    else σ.

(** Modelled from the spec: one reaction of the session's event loop
    (section 5: operations are applied one at a time, in delivery order). *)
Definition step (σ : Session) (e : Event) : Session :=
  match e with
  | LocalCreate t p => localCreate t p σ
  | LocalDelete i => purge i σ
  | Ack correlationId c => ack correlationId c σ
  | Reject correlationId _ => reject correlationId σ
  | RemoteChange (aspect c) => remoteUpsert c σ
  | RemoteChange (deletion i r) => remoteDelete i r σ
  end.

Definition run (σ : Session) (es : list Event) : Session := foldl step σ es.

(** A local create immediately followed by its matching [Ack]. *)
Definition createThenAck (x : string * string * CanonicalAspect) : list Event :=
  let '(t, p, c) := x in [LocalCreate t p; Ack t c].

Definition isAckFor (t : string) (e : Event) : bool :=
  match e with
  | Ack correlationId _ => bool_decide (correlationId = t)
  | _ => false
  end.

(** A trace made of local creates and Acks only, in which every local create
    is followed, at some later point, by an Ack carrying its tentative id. *)
Fixpoint createsAcked (es : list Event) : bool :=
  match es with
  | [] => true
  | LocalCreate t _ :: es' => existsb (isAckFor t) es' && createsAcked es'
  | Ack _ _ :: es' => createsAcked es'
  | _ :: _ => false
  end.

(** The events that name [x] as the entry they act on. *)
Definition names (x : string) (e : Event) : bool :=
  match e with
  | LocalCreate t _ => bool_decide (t = x)
  | LocalDelete i => bool_decide (i = x)
  | Ack correlationId c =>
      bool_decide (correlationId = x) || bool_decide (canonicalId c = x)
  | Reject correlationId _ => bool_decide (correlationId = x)
  | RemoteChange _ => false
  end.

(** ** Insertion order *)

(** The ids of a sequence of upserted aspects in the order in which each id
    was first inserted: later repetitions of an id are dropped. *)
Fixpoint insertionOrder (l : list string) : list string :=
  match l with
  | [] => []
  | i :: l' => i :: filter (λ j, j ≠ i) (insertionOrder l')
  end.

(** The aspect most recently upserted under id [i], if any. *)
Fixpoint lastUpserted (i : string) (items : list CanvasAspect.t)
  : option CanvasAspect.t :=
  match items with
  | [] => None
  | a :: rest =>
      match lastUpserted i rest with
      | Some b => Some b
      | None => if bool_decide (CanvasAspect.id a = i) then Some a else None
      end
  end.

(** Modelled from the spec: a sequence of [upsert] calls of section 4.1,
    applied to a store from left to right. *)
Definition upsertAll (items : list CanvasAspect.t) (s : State) : State :=
  foldl (λ s a, upsert a s) s items.

(** ** Predicates on stores *)

Definition pendingSubset (s : State) : Prop :=
  ∀ i, i ∈ addedIds s → i ∈ ids s.

Definition allListed (s : State) : Prop :=
  ∀ i, i ∈ ids s → is_Some (entities s !! i).

Definition storeConsistent (s : State) : Prop :=
  ∀ i, i ∈ ids s → ∃ a, entities s !! i = Some a ∧ CanvasAspect.id a = i.

Definition pendingKeyed (s : State) : Prop :=
  ∀ i, i ∈ addedIds s → is_Some (entities s !! i).

(** Every listed id holds a confirmed aspect: keyed by its own id and
    carrying a revision (tentative aspects carry none). *)
Definition canonicalOnly (s : State) : Prop :=
  ∀ i, i ∈ ids s →
       ∃ a, entities s !! i = Some a ∧ CanvasAspect.id a = i
            ∧ is_Some (CanvasAspect.revision a).

(** The session in the middle of a trace of creates and Acks, [es] being the
    events still to come: every pending id has its Ack ahead, every listed id
    holds an entry that is either pending or confirmed with an id admitted by
    [Φ], and the dictionary has no key outside the listed ids. *)
Definition awaiting (Φ : string → Prop) (s : State) (es : list Event) : Prop :=
  (∀ i, i ∈ addedIds s → ∃ c, Ack i c ∈ es)
  ∧ (∀ i, i ∈ ids s →
          ∃ a, entities s !! i = Some a
               ∧ (i ∈ addedIds s
                  ∨ (CanvasAspect.id a = i ∧ is_Some (CanvasAspect.revision a) ∧ Φ i)))
  ∧ (∀ i, is_Some (entities s !! i) → i ∈ ids s)
  ∧ pendingSubset s.

(** Every element of [l] before position [k] is a defined aspect whose id is
    not [i]: what [find] has passed over when it reaches position [k]. *)
Definition passedOver (i : string) (l : list (option CanvasAspect.t)) (k : nat) : Prop :=
  ∀ j : nat, j < k → ∃ b, l !! j = Some (Some b) ∧ CanvasAspect.id b ≠ i.

(** ** Sample stores and traces *)

Definition aspectA : CanvasAspect.t := CanvasAspect.mk "a" None "pa".
Definition aspectB : CanvasAspect.t := CanvasAspect.mk "b" (Some 1%N) "pb".

(** A consistent store with one pending aspect. *)
Definition storeAB : State :=
  {| ids := ["a"; "b"];
     entities := <["a" := aspectA]> (<["b" := aspectB]> ∅);
     addedIds := ["a"] |}.

(** The same entities with [addedIds] in the opposite order of [ids]. *)
Definition storeBA : State :=
  {| ids := ["a"; "b"];
     entities := <["a" := aspectA]> (<["b" := aspectB]> ∅);
     addedIds := ["b"; "a"] |}.

(** A store whose [addedIds] names an id that is no key of [entities]. *)
Definition storeMissingPending : State :=
  {| ids := ["a"];
     entities := <["a" := aspectA]> ∅;
     addedIds := ["a"; "gone"] |}.

Definition sampleTrace : list Event :=
  [ LocalCreate "tmp-1" "P";
    RemoteChange (aspect (mkCanonical "c-3" 4 "R"));
    LocalCreate "tmp-2" "Q";
    Ack "tmp-1" (mkCanonical "c-9" 1 "P");
    Reject "tmp-2" "ValidationRejected";
    RemoteChange (deletion "c-3" 5) ].

(** Two creates in flight at once, acknowledged later in the opposite order. *)
Definition overlappingCreates : list Event :=
  [ LocalCreate "tmp-1" "P";
    LocalCreate "tmp-2" "Q";
    Ack "tmp-2" (mkCanonical "c-10" 1 "Q");
    Ack "tmp-1" (mkCanonical "c-9" 1 "P") ].

Definition sessionAtRevision2 : Session :=
  run initialSession [RemoteChange (aspect (mkCanonical "c-9" 2 "P2"))].



(** A store whose second listed id has no entity, behind a defined first. *)
Definition storeDanglingSecond : State :=
  {| ids := ["a"; "x"];
     entities := <["a" := aspectA]> ∅;
     addedIds := [] |}.

(** The root object holding [storeAB] as its feature slice. *)
Definition rootAB : Root.AppState := Root.mkAppState (Some storeAB).

(** * Selector layer *)

Section Selectors.

Implicit Types (s : State) (i : string) (a : CanvasAspect.t).
Implicit Types (l : list (option CanvasAspect.t)).

Lemma selectAll_lookup s (k : nat) :
  selectAllCanvasAspectItems s !! k = (λ i, entities s !! i) <$> ids s !! k.
Proof. unfold selectAllCanvasAspectItems. apply list_lookup_fmap. Qed.

Lemma selectAdded_lookup s (k : nat) :
  selectAddedCanvasAspects s !! k = (λ i, entities s !! i) <$> addedIds s !! k.
Proof. unfold selectAddedCanvasAspects. apply list_lookup_fmap. Qed.

(** On a store whose listed ids all have an entity carrying that id, the
    view lists aspects whose ids are the store order. *)
Lemma selectAll_listed s :
  allListed s →
  ∃ items : list CanvasAspect.t,
    selectAllCanvasAspectItems s = Some <$> items
    ∧ Forall2 (λ i a, entities s !! i = Some a) (ids s) items.
Proof.
  unfold allListed, selectAllCanvasAspectItems.
  induction (ids s) as [|j js IH]; intros Hl.
  - exists []. split; [done | constructor].
  - destruct (Hl j) as [a Ha]; [left |].
    destruct IH as (items & Hitems & Hall).
    { intros i Hi. apply Hl. by right. }
    exists (a :: items). split.
    + cbn. by rewrite Ha, Hitems.
    + by constructor.
Qed.

(** [find] over an array without [undefined] entries never raises. *)
Lemma find_defined i (items : list CanvasAspect.t) :
  find i (Some <$> items)
  = Normal (match list_find (λ a, CanvasAspect.id a = i) items with
            | Some (_, a) => JsObject a
            | None => JsUndefined
            end).
Proof.
  induction items as [|a items IH]; [done |].
  cbn [fmap list_fmap find list_find].
  case_bool_decide as Ha.
  - by rewrite decide_True.
  - rewrite decide_False by done. rewrite IH.
    by destruct (list_find _ items) as [[? ?]|].
Qed.

Lemma find_no_match i l :
  Forall (λ e, ∃ a, e = Some a ∧ CanvasAspect.id a ≠ i) l →
  find i l = Normal JsUndefined.
Proof.
  induction 1 as [|e l (a & -> & Hne) _ IH]; [done |].
  cbn. by rewrite bool_decide_eq_false_2.
Qed.

Lemma filter_ext_elem_of (P Q : string → Prop)
      `{!∀ x, Decision (P x), !∀ x, Decision (Q x)} (js : list string) :
  (∀ j, j ∈ js → P j ↔ Q j) → filter P js = filter Q js.
Proof.
  induction js as [|j js IH]; intros Hiff; [done |].
  assert (Hjs : filter P js = filter Q js).
  { apply IH. intros k Hk. apply Hiff. by right. }
  destruct (decide (P j)) as [Hp|Hp].
  - rewrite !filter_cons_True; [by f_equal | | done]. apply Hiff; [left | done].
  - rewrite !filter_cons_False; [done | | done].
    intros Hq. apply Hp, Hiff; [left | done].
Qed.

(** A duplicate-free list filtered by membership in one of its
    subsequences is that subsequence. *)
Lemma filter_elem_of_sublist (l1 l2 : list string) :
  sublist l1 l2 → NoDup l2 → filter (λ j, j ∈ l1) l2 = l1.
Proof.
  induction 1 as [|x l1 l2 Hsub IH|x l1 l2 Hsub IH]; intros Hnd.
  - done.
  - apply NoDup_cons in Hnd as [Hx Hnd].
    rewrite filter_cons_True by left. f_equal.
    transitivity (filter (λ j, j ∈ l1) l2); [| by apply IH].
    apply filter_ext_elem_of. intros j Hj. split.
    + intros [->|?]%elem_of_cons; done.
    + intros ?. by right.
  - apply NoDup_cons in Hnd as [Hx Hnd].
    rewrite filter_cons_False; [by apply IH |].
    intros Hin. apply Hx. by eapply elem_of_sublist.
Qed.

Lemma pendingAspectsSpec_filter_ids s :
  storeConsistent s →
  pendingAspectsSpec s
  = (λ i, entities s !! i) <$> filter (λ j, j ∈ addedIds s) (ids s).
Proof.
  unfold storeConsistent, pendingAspectsSpec, selectAllCanvasAspectItems.
  induction (ids s) as [|j js IH]; intros Hk; [done |].
  destruct (Hk j) as (a & Ha & Hid); [left |].
  assert (Hjs : ∀ i, i ∈ js → ∃ a, entities s !! i = Some a ∧ CanvasAspect.id a = i).
  { intros i Hi. apply Hk. by right. }
  rewrite fmap_cons.
  destruct (decide (j ∈ addedIds s)) as [Hin|Hout].
  - rewrite filter_cons_True.
    + rewrite (filter_cons_True _ j) by done.
      rewrite fmap_cons. f_equal. by apply IH.
    + rewrite Ha. cbn. rewrite Hid. by apply bool_decide_pack.
  - rewrite filter_cons_False.
    + rewrite (filter_cons_False _ j) by done. by apply IH.
    + rewrite Ha. cbn. rewrite Hid. intros ?%bool_decide_unpack. done.
Qed.

End Selectors.

Lemma ids_upsertAll (items : list CanvasAspect.t) (s : State) :
  ids (upsertAll items s)
  = ids s ++ filter (λ j, j ∉ ids s) (insertionOrder (CanvasAspect.id <$> items)).
Proof.
  unfold upsertAll. revert s.
  induction items as [|a items IH]; intros s.
  - cbn. by rewrite app_nil_r.
  - cbn [foldl fmap list_fmap insertionOrder]. rewrite IH.
    set (io := insertionOrder (CanvasAspect.id <$> items)).
    destruct (decide (CanvasAspect.id a ∈ ids s)) as [Hin | Hout].
    + assert (ids (upsert a s) = ids s) as ->.
      { unfold upsert. cbn. by rewrite (bool_decide_eq_true_2 _ Hin). }
      rewrite filter_cons_False by (intros Hout; by apply Hout).
      f_equal. rewrite list_filter_filter.
      apply filter_ext_elem_of. intros j _. split; [| by intros [? _]].
      intros Hj. split; [done |]. by intros ->.
    + assert (ids (upsert a s) = ids s ++ [CanvasAspect.id a]) as ->.
      { unfold upsert. cbn. by rewrite (bool_decide_eq_false_2 _ Hout). }
      rewrite filter_cons_True by done.
      rewrite <- app_assoc. cbn. do 2 f_equal. rewrite list_filter_filter.
      apply filter_ext_elem_of. intros j _.
      rewrite elem_of_app, list_elem_of_singleton. tauto.
Qed.

Lemma entities_upsertAll (items : list CanvasAspect.t) (s : State) (i : string) :
  entities (upsertAll items s) !! i
  = match lastUpserted i items with
    | Some b => Some b
    | None => entities s !! i
    end.
Proof.
  unfold upsertAll. revert s.
  induction items as [|a items IH]; intros s; [done |].
  cbn [foldl lastUpserted]. rewrite IH.
  destruct (lastUpserted i items); [done |].
  unfold upsert. cbn [entities]. case_bool_decide as Ha.
  - subst i. apply lookup_insert_eq.
  - by apply lookup_insert_ne.
Qed.

Lemma elem_of_insertionOrder (l : list string) (i : string) :
  i ∈ insertionOrder l → i ∈ l.
Proof.
  induction l as [|j l IH]; [done |]. cbn.
  intros [-> | Hi]%elem_of_cons; [left |].
  apply (list_elem_of_filter (λ k, k ≠ j)) in Hi as [_ Hi]. right. by apply IH.
Qed.

Lemma lastUpserted_is_Some (items : list CanvasAspect.t) (i : string) :
  i ∈ CanvasAspect.id <$> items → is_Some (lastUpserted i items).
Proof.
  induction items as [|a items IH]; cbn.
  - by intros ?%not_elem_of_nil.
  - intros Hi. destruct (lastUpserted i items) as [b |]; [by eexists |].
    case_bool_decide as Ha; [by eexists |].
    apply elem_of_cons in Hi as [-> | Hi]; [done |].
    by destruct (IH Hi).
Qed.

(** C7. For every store state [s] and every sequence of aspects upserted
    into it, the all-aspects view of the resulting store lists the ids that
    [s] already held in their old order, then the new ids in the order in
    which each was first inserted; each position shows the aspect most
    recently upserted under its id, or the one [s] held.  With no upsert this
    is the view of [s] along its id sequence. *)
Theorem selectAll_in_insertion_order (s : State) (items : list CanvasAspect.t) :
  selectAllCanvasAspectItems (upsertAll items s)
  = ((λ i, match lastUpserted i items with
           | Some b => Some b
           | None => entities s !! i
           end) <$> ids s)
    ++ ((λ i, lastUpserted i items)
          <$> filter (λ j, j ∉ ids s) (insertionOrder (CanvasAspect.id <$> items))).
Proof.
  unfold selectAllCanvasAspectItems. rewrite ids_upsertAll, fmap_app. f_equal.
  - apply list_fmap_ext. intros _ i _. apply entities_upsertAll.
  - apply list_fmap_ext. intros _ i Hi%list_elem_of_lookup_2.
    apply (list_elem_of_filter (λ j, j ∉ ids s)) in Hi as [_ Hi].
    apply elem_of_insertionOrder, lastUpserted_is_Some in Hi as [b Hb].
    rewrite entities_upsertAll. by rewrite Hb.
Qed.

(** Upserting [a], [b], then a newer [a] into the empty store lists [a]
    first, with its newer content. *)
Example selectAll_replaces_in_place :
  selectAllCanvasAspectItems
    (upsertAll [aspectA; aspectB; CanvasAspect.mk "a" (Some 2%N) "pa2"] initialState)
  = [Some (CanvasAspect.mk "a" (Some 2%N) "pa2"); Some aspectB].
Proof. reflexivity. Qed.

(** On a store filled by upserting aspects with pairwise distinct ids, the
    view is exactly the inserted aspects, first inserted first. *)
Lemma selectAll_after_upserts (items : list CanvasAspect.t) :
  NoDup (CanvasAspect.id <$> items) →
  selectAllCanvasAspectItems (foldl (λ s a, upsert a s) initialState items)
  = Some <$> items.
Proof.
  intros Hnd.
  cut (∀ s : State,
            (∀ a, a ∈ items → CanvasAspect.id a ∉ ids s) →
            selectAllCanvasAspectItems (foldl (λ s a, upsert a s) s items)
            = selectAllCanvasAspectItems s ++ (Some <$> items)).
  { intros H. rewrite H; [done |]. intros a _. cbn. apply not_elem_of_nil. }
  induction items as [|a items IH]; intros s Hfresh.
  - cbn. by rewrite app_nil_r.
  - apply NoDup_cons in Hnd as [Ha Hnd]. cbn [foldl].
    assert (Hs : CanvasAspect.id a ∉ ids s) by (apply Hfresh; left).
    rewrite IH; [| done |].
    + rewrite fmap_cons, cons_middle, app_assoc. f_equal.
      unfold selectAllCanvasAspectItems, upsert. cbn.
      rewrite bool_decide_eq_false_2 by done.
      rewrite fmap_app. cbn. rewrite lookup_insert_eq. f_equal.
      apply list_fmap_ext. intros _ i Hi%list_elem_of_lookup_2.
      rewrite lookup_insert_ne; [done |]. by intros <-.
    + intros b Hb. unfold upsert. cbn.
      rewrite bool_decide_eq_false_2 by done.
      rewrite elem_of_app, list_elem_of_singleton. intros [Hin | Heq].
      * apply (Hfresh b); [by right | done].
      * apply Ha. apply list_elem_of_fmap. by exists b.
Qed.

(** ** The by-id selector *)

(** C5. On every store state, that is every [State] in which each listed id
    has an entity, as the entity adapter keeps it and as the projector's
    parameter type [CanvasAspect[]] requires, the by-id selector never
    raises: when the view holds an aspect whose id field
    is the requested id it returns such an aspect (the first one), and when it
    holds none it returns [undefined]. *)
Theorem selectById_found_or_undefined (s : State) (i : string) :
  allListed s →
  ((∃ a, Some a ∈ selectAllCanvasAspectItems s ∧ CanvasAspect.id a = i) →
   ∃ a', selectCanvasAspectById i s = Normal (JsObject a')
         ∧ CanvasAspect.id a' = i
         ∧ Some a' ∈ selectAllCanvasAspectItems s)
  ∧ ((∀ a, Some a ∈ selectAllCanvasAspectItems s → CanvasAspect.id a ≠ i) →
     selectCanvasAspectById i s = Normal JsUndefined).
Proof.
  intros Hl. destruct (selectAll_listed s Hl) as (items & Hitems & _).
  unfold selectCanvasAspectById, canvasAspectByIdProjector.
  rewrite Hitems, find_defined.
  destruct (list_find _ items) as [[k a']|] eqn:Hfind.
  - apply list_find_Some in Hfind as (Hk & Hid & _). split.
    + intros _. exists a'. split; [done |]. split; [done |].
      apply list_elem_of_fmap_2. by eapply list_elem_of_lookup_2.
    + intros Hnone. exfalso. apply (Hnone a'); [| done].
      apply list_elem_of_fmap_2. by eapply list_elem_of_lookup_2.
  - apply list_find_None in Hfind. split; [| done].
    intros (a & Ha & Hid). exfalso.
    apply list_elem_of_fmap in Ha as (b & [= <-] & Hb).
    rewrite Forall_forall in Hfind. by apply (Hfind a).
Qed.

Lemma storeAB_consistent : storeConsistent storeAB.
Proof.
  intros i Hi. cbn in Hi.
  apply elem_of_cons in Hi as [-> | Hi]; [by exists aspectA |].
  apply list_elem_of_singleton in Hi as ->. by exists aspectB.
Defined.

Lemma storeAB_allListed : allListed storeAB.
Proof.
  intros i Hi. destruct (storeAB_consistent i Hi) as (a & Ha & _). by exists a.
Defined.

Lemma selectById_found_or_undefined_witness :
  allListed storeAB
  ∧ selectCanvasAspectById "b" storeAB = Normal (JsObject aspectB)
  ∧ selectCanvasAspectById "zz" storeAB = Normal JsUndefined.
Proof.
  split; [exact storeAB_allListed |].
  split; [reflexivity |].
  apply (selectById_found_or_undefined storeAB "zz" storeAB_allListed).
  intros a Ha. vm_compute in Ha.
  apply elem_of_cons in Ha as [[= ->] | Ha]; [done |].
  apply list_elem_of_singleton in Ha as [= ->]. done.
Defined.

(** C9. The two absent markers differ: an absent list ([null] or
    [undefined]) gives [null], a present list without an aspect of the
    requested id gives [undefined], and a strict comparison against either
    marker alone recognises only one of the two cases. *)
Theorem selectById_two_absent_markers
        (i : string) (items : list (option CanvasAspect.t)) :
  Forall (λ e, ∃ a, e = Some a ∧ CanvasAspect.id a ≠ i) items →
  canvasAspectByIdProjector i ArrNull = Normal JsNull
  ∧ canvasAspectByIdProjector i ArrUndefined = Normal JsNull
  ∧ canvasAspectByIdProjector i (Arr items) = Normal JsUndefined
  ∧ strictEquals JsNull JsUndefined = false
  ∧ strictEquals JsUndefined JsNull = false.
Proof.
  intros Hitems. repeat split. by apply find_no_match.
Qed.

Lemma selectById_two_absent_markers_witness :
  canvasAspectByIdProjector "zz" ArrNull = Normal JsNull
  ∧ canvasAspectByIdProjector "zz" ArrUndefined = Normal JsNull
  ∧ canvasAspectByIdProjector "zz" (Arr [Some aspectA; Some aspectB])
    = Normal JsUndefined
  ∧ strictEquals JsNull JsUndefined = false
  ∧ strictEquals JsUndefined JsNull = false.
Proof.
  apply (selectById_two_absent_markers "zz" [Some aspectA; Some aspectB]).
  repeat constructor.
  - exists aspectA. split; [reflexivity | discriminate].
  - exists aspectB. split; [reflexivity | discriminate].
Defined.

(** ** The pending-aspects selector *)

(** C1, as stated, fails: the selector follows the order of [addedIds], not
    the order of the all-aspects view. *)
Lemma selectAdded_not_subsequence :
  selectAddedCanvasAspects storeBA = [Some aspectB; Some aspectA]
  ∧ pendingAspectsSpec storeBA = [Some aspectA; Some aspectB]
  ∧ selectAddedCanvasAspects storeBA ≠ pendingAspectsSpec storeBA.
Proof.
  split; [reflexivity |]. split; [reflexivity |].
  vm_compute. discriminate.
Qed.

(** C1, amended. On every store whose id sequence is duplicate-free, whose
    listed ids each have an entity carrying that id, and whose [addedIds] is a
    subsequence of the id sequence, the pending-aspects view is the
    subsequence of the all-aspects view made of the aspects whose id is in
    [addedIds]. *)
Theorem selectAdded_is_pending_subsequence (s : State) :
  NoDup (ids s) →
  storeConsistent s →
  sublist (addedIds s) (ids s) →
  selectAddedCanvasAspects s = pendingAspectsSpec s.
Proof.
  intros Hnd Hcons Hsub.
  rewrite pendingAspectsSpec_filter_ids by done.
  by rewrite filter_elem_of_sublist.
Qed.

Lemma selectAdded_is_pending_subsequence_witness :
  selectAddedCanvasAspects storeAB = pendingAspectsSpec storeAB
  ∧ selectAddedCanvasAspects storeAB = [Some aspectA].
Proof.
  split; [| reflexivity].
  apply (selectAdded_is_pending_subsequence storeAB).
  - cbn. apply NoDup_cons. split.
    + intros H%list_elem_of_singleton. discriminate.
    + apply NoDup_singleton.
  - exact storeAB_consistent.
  - cbn. apply sublist_skip, sublist_cons, sublist_nil.
Defined.

(** C10. The selector indexes [entities] unguarded: when every id of
    [addedIds] is a key of [entities] each element of the result is a defined
    aspect; an id of [addedIds] that is no key of [entities] puts [undefined]
    at its position, and such a store exists. *)
Theorem selectAdded_defined_iff_keyed :
  (∀ s, pendingKeyed s → Forall is_Some (selectAddedCanvasAspects s))
  ∧ (∀ s (k : nat) i,
       addedIds s !! k = Some i → entities s !! i = None →
       selectAddedCanvasAspects s !! k = Some None)
  ∧ (∃ s (k : nat) i,
       addedIds s !! k = Some i ∧ entities s !! i = None
       ∧ selectAddedCanvasAspects s !! k = Some None).
Proof.
  split; [| split].
  - intros s Hk. unfold selectAddedCanvasAspects.
    apply Forall_fmap, Forall_forall. intros i Hi. by apply Hk.
  - intros s k i Hk Hi. rewrite selectAdded_lookup, Hk. cbn. by rewrite Hi.
  - exists storeMissingPending, 1%nat, "gone". by repeat split.
Qed.

Lemma selectAdded_defined_iff_keyed_witness :
  pendingKeyed storeAB
  ∧ Forall is_Some (selectAddedCanvasAspects storeAB)
  ∧ selectAddedCanvasAspects storeMissingPending !! 1%nat = Some None.
Proof.
  assert (Hk : pendingKeyed storeAB).
  { intros i Hi%list_elem_of_singleton. subst i. by exists aspectA. }
  split; [exact Hk |]. split.
  - exact (proj1 selectAdded_defined_iff_keyed storeAB Hk).
  - apply (proj1 (proj2 selectAdded_defined_iff_keyed) storeMissingPending 1%nat "gone");
      reflexivity.
Defined.

(** ** Selectors do not write *)

Section Frame.

Import Threaded.

Lemma arrayMap_readEntity (js : list string) (s : State) :
  arrayMap readEntity js s = ((λ i, entities s !! i) <$> js, s).
Proof.
  induction js as [|j js IH]; [done |].
  change (arrayMap readEntity (j :: js) s)
    with (let '(ys, s') := arrayMap readEntity js s in (entities s !! j :: ys, s')).
  by rewrite IH.
Qed.

End Frame.

(** C8. Each of the three selectors, run against a store, hands back the
    store it was given: the id sequence, the entity dictionary and [addedIds]
    are those of the input, and the result is the one of the pure selector. *)
Theorem selectors_read_only (s : State) (i : string) :
  Threaded.selectAllCanvasAspectItems s = (selectAllCanvasAspectItems s, s)
  ∧ Threaded.selectCanvasAspectById i s = (selectCanvasAspectById i s, s)
  ∧ Threaded.selectAddedCanvasAspects s = (selectAddedCanvasAspects s, s).
Proof.
  assert (Hall : Threaded.selectAllCanvasAspectItems s
                 = (selectAllCanvasAspectItems s, s)).
  { unfold Threaded.selectAllCanvasAspectItems, Threaded.bind, Threaded.readIds.
    apply arrayMap_readEntity. }
  split; [exact Hall |]. split.
  - unfold Threaded.selectCanvasAspectById, Threaded.bind. by rewrite Hall.
  - unfold Threaded.selectAddedCanvasAspects, Threaded.bind, Threaded.readAddedIds.
    apply arrayMap_readEntity.
Qed.

(** * Reconciliation engine *)

Section StoreOperations.

Implicit Types (s : State) (i j : string) (a : CanvasAspect.t).

Lemma elem_of_ids_upsert a s j :
  j ∈ ids (upsert a s) ↔ j ∈ ids s ∨ j = CanvasAspect.id a.
Proof.
  unfold upsert. cbn. case_bool_decide as Hin.
  - split; [by left |]. by intros [? | ->].
  - by rewrite elem_of_app, list_elem_of_singleton.
Qed.

Lemma elem_of_ids_remove i s j :
  j ∈ ids (remove i s) ↔ j ≠ i ∧ j ∈ ids s.
Proof. unfold remove. cbn. apply (list_elem_of_filter (λ k, k ≠ i)). Qed.

Lemma elem_of_addedIds_addPending i s j :
  j ∈ addedIds (addPending i s) ↔ j ∈ addedIds s ∨ j = i.
Proof.
  unfold addPending. cbn. case_bool_decide as Hin.
  - split; [by left |]. by intros [? | ->].
  - by rewrite elem_of_app, list_elem_of_singleton.
Qed.

Lemma elem_of_addedIds_removePending i s j :
  j ∈ addedIds (removePending i s) ↔ j ≠ i ∧ j ∈ addedIds s.
Proof. unfold removePending. cbn. apply (list_elem_of_filter (λ k, k ≠ i)). Qed.

Lemma entities_upsert a s :
  entities (upsert a s) = <[CanvasAspect.id a := a]> (entities s).
Proof. reflexivity. Qed.

Lemma entities_remove i s : entities (remove i s) = delete i (entities s).
Proof. reflexivity. Qed.

Lemma entities_addPending i s : entities (addPending i s) = entities s.
Proof. reflexivity. Qed.

Lemma entities_removePending i s : entities (removePending i s) = entities s.
Proof. reflexivity. Qed.

Lemma addedIds_upsert a s : addedIds (upsert a s) = addedIds s.
Proof. reflexivity. Qed.

Lemma addedIds_remove i s : addedIds (remove i s) = addedIds s.
Proof. reflexivity. Qed.

Lemma ids_addPending i s : ids (addPending i s) = ids s.
Proof. reflexivity. Qed.

Lemma ids_removePending i s : ids (removePending i s) = ids s.
Proof. reflexivity. Qed.

Lemma entities_rekey i a s :
  entities (rekey i a s) = <[CanvasAspect.id a := a]> (delete i (entities s)).
Proof. unfold rekey. by case_bool_decide. Qed.

Lemma addedIds_rekey i a s : addedIds (rekey i a s) = addedIds s.
Proof. unfold rekey. by case_bool_decide. Qed.

Lemma elem_of_ids_rekey i a s j :
  j ∈ ids (rekey i a s)
  ↔ (j ≠ i ∧ j ∈ ids s)
    ∨ (j = CanvasAspect.id a ∧ (i ∈ ids s ∨ CanvasAspect.id a ∈ ids s)).
Proof.
  unfold rekey. case_bool_decide as Hcase.
  - destruct Hcase as [Hne Hin].
    rewrite elem_of_ids_upsert, elem_of_ids_remove. split.
    + intros [? | ->]; [by left |]. right. split; [done | by right].
    + intros [? | [-> _]]; [by left |]. by right.
  - cbn. rewrite list_elem_of_fmap. split.
    + intros (k & -> & Hk). case_bool_decide as Hki.
      * subst k. right. split; [done | by left].
      * left. by split.
    + intros [[Hne Hj] | [-> Hor]].
      * exists j. split; [| done]. by rewrite bool_decide_eq_false_2.
      * destruct Hor as [Hi | Hin].
        -- exists i. split; [| done]. by rewrite bool_decide_eq_true_2.
        -- destruct (decide (CanvasAspect.id a = i)) as [Heq | Hne].
           ++ exists i. rewrite bool_decide_eq_true_2 by done.
              split; [done |]. by rewrite <- Heq.
           ++ exfalso. apply Hcase. by split.
Qed.

End StoreOperations.

Section Engine.

Implicit Types (σ : Session) (e : Event) (x i : string) (a : CanvasAspect.t).

Local Arguments upsert : simpl never.
Local Arguments remove : simpl never.
Local Arguments addPending : simpl never.
Local Arguments removePending : simpl never.
Local Arguments rekey : simpl never.

Lemma run_app σ (es1 es2 : list Event) :
  run σ (es1 ++ es2) = run (run σ es1) es2.
Proof. apply foldl_app. Qed.

Lemma purge_pendingSubset i σ :
  pendingSubset (state σ) → pendingSubset (state (purge i σ)).
Proof.
  intros Hinv j. cbn.
  rewrite elem_of_addedIds_removePending. intros [Hne Hj].
  change (j ∈ ids (remove i (state σ))).
  rewrite elem_of_ids_remove. split; [done |]. by apply Hinv.
Qed.

Lemma step_pendingSubset σ e :
  pendingSubset (state σ) → pendingSubset (state (step σ e)).
Proof.
  intros Hinv.
  destruct e as [t p | i | corr c | corr reason | [c | i r]]; cbn [step].
  - intros j. cbn. rewrite elem_of_addedIds_addPending.
    change (ids (addPending t ?s)) with (ids s).
    rewrite elem_of_ids_upsert. intros [Hj | ->]; [left; by apply Hinv | by right].
  - by apply purge_pendingSubset.
  - unfold ack. destruct (entities (state σ) !! corr); [| done].
    intros j. cbn. rewrite elem_of_addedIds_removePending, addedIds_rekey.
    intros [Hne Hj].
    change (j ∈ ids (rekey corr (toAspect c) (state σ))).
    rewrite elem_of_ids_rekey. left. split; [done | by apply Hinv].
  - unfold reject. destruct (entities (state σ) !! corr) as [a |]; [| done].
    destruct (CanvasAspect.revision a); [| by apply purge_pendingSubset].
    intros j. cbn. rewrite elem_of_addedIds_removePending. intros [_ Hj].
    destruct (confirmed σ !! corr); cbn in *; by apply Hinv.
  - unfold remoteUpsert.
    repeat case_bool_decide; repeat case_match; try done.
    all: intros j Hj; cbn in *; rewrite ?elem_of_ids_upsert; try left; by apply Hinv.
  - unfold remoteDelete. case_bool_decide.
    + by destruct (newerRevisionThan _ r).
    + destruct (newerRevisionThan _ r); [by apply purge_pendingSubset | done].
Qed.

(** An event that does not name [x] leaves the entry of [x] and its
    pending status alone, as long as [x] is pending. *)
Lemma step_keeps_pending_edit σ e x a :
  names x e = false →
  x ∈ addedIds (state σ) →
  entities (state σ) !! x = Some a →
  x ∈ addedIds (state (step σ e)) ∧ entities (state (step σ e)) !! x = Some a.
Proof.
  intros Hnames Hpend Hx.
  assert (Hpurge : ∀ i, i ≠ x →
            x ∈ addedIds (state (purge i σ))
            ∧ entities (state (purge i σ)) !! x = Some a).
  { intros i Hi. unfold purge. cbn [state]. split.
    - apply elem_of_addedIds_removePending. rewrite addedIds_remove.
      split; [by intros -> | done].
    - rewrite entities_removePending, entities_remove.
      by rewrite lookup_delete_ne. }
  destruct e as [t p | i | corr c | corr reason | [c | i r]]; cbn [step names] in *.
  - apply bool_decide_eq_false_1 in Hnames. unfold localCreate. cbn [state]. split.
    + apply elem_of_addedIds_addPending. rewrite addedIds_upsert. by left.
    + rewrite entities_addPending, entities_upsert.
      by rewrite lookup_insert_ne.
  - apply bool_decide_eq_false_1 in Hnames. by apply Hpurge.
  - apply orb_false_iff in Hnames as [Hcorr%bool_decide_eq_false_1
                                        Hc%bool_decide_eq_false_1].
    unfold ack. destruct (entities (state σ) !! corr); [| done].
    cbn [state]. split.
    + apply elem_of_addedIds_removePending. rewrite addedIds_rekey.
      split; [by intros -> | done].
    + rewrite entities_removePending, entities_rekey.
      rewrite lookup_insert_ne by done. by rewrite lookup_delete_ne.
  - apply bool_decide_eq_false_1 in Hnames.
    unfold reject. destruct (entities (state σ) !! corr) as [b |]; [| done].
    destruct (CanvasAspect.revision b); [| by apply Hpurge].
    cbn [state]. split.
    + apply elem_of_addedIds_removePending. split; [by intros -> |].
      by destruct (confirmed σ !! corr).
    + rewrite entities_removePending.
      destruct (confirmed σ !! corr); [| done].
      cbn. by rewrite lookup_insert_ne.
  - unfold remoteUpsert. case_bool_decide as Hcp.
    + by destruct (newerThan _ c).
    + destruct (newerThan _ c); [| done]. cbn [state]. split; [done |].
      rewrite entities_upsert. rewrite lookup_insert_ne; [done |].
      cbn. by intros <-.
  - unfold remoteDelete. case_bool_decide as Hip.
    + by destruct (newerRevisionThan _ r).
    + destruct (newerRevisionThan _ r); [| done].
      apply Hpurge. by intros ->.
Qed.

Lemma isAckFor_elem_of (t : string) (es : list Event) :
  existsb (isAckFor t) es = true → ∃ c, Ack t c ∈ es.
Proof.
  intros (e & He & Hack)%existsb_exists. apply list_elem_of_In in He.
  destruct e as [| | corr c | |]; try discriminate.
  apply bool_decide_eq_true_1 in Hack as ->. by exists c.
Qed.

Lemma awaiting_step (Φ : string → Prop) σ e (es : list Event) :
  createsAcked (e :: es) = true →
  (∀ t c, e = Ack t c → Φ (canonicalId c)) →
  awaiting Φ (state σ) (e :: es) →
  awaiting Φ (state (step σ e)) es.
Proof.
  intros Hacked HΦ (Hahead & Hentry & Hdom & Hsub).
  assert (Hsub' : pendingSubset (state (step σ e))) by by apply step_pendingSubset.
  destruct e as [t p | | t c | |]; try discriminate; cbn [step createsAcked] in *.
  - apply andb_true_iff in Hacked as [Hack%isAckFor_elem_of _].
    unfold localCreate. cbn [state].
    set (tent := CanvasAspect.mk t None p).
    split; [| split; [| split]]; [| | | exact Hsub'].
    + intros i [Hi | ->]%elem_of_addedIds_addPending; [| done].
      rewrite addedIds_upsert in Hi. destruct (Hahead i Hi) as [c Hc].
      apply elem_of_cons in Hc as [[=] | Hc]. by exists c.
    + intros i. rewrite ids_addPending, elem_of_ids_upsert.
      rewrite entities_addPending, entities_upsert. cbn [CanvasAspect.id tent].
      destruct (decide (i = t)) as [-> | Hne].
      * intros _. exists tent. rewrite lookup_insert_eq. split; [done |].
        left. apply elem_of_addedIds_addPending. by right.
      * intros [Hi | ?]; [| done]. destruct (Hentry i Hi) as (a & Ha & Hor).
        exists a. rewrite lookup_insert_ne by done. split; [done |].
        destruct Hor as [Hp | ?]; [left | by right].
        apply elem_of_addedIds_addPending. left. by rewrite addedIds_upsert.
    + intros i. rewrite ids_addPending, elem_of_ids_upsert.
      rewrite entities_addPending, entities_upsert. cbn [CanvasAspect.id tent].
      destruct (decide (i = t)) as [-> | Hne]; [by right |].
      rewrite lookup_insert_ne by done. intros Hi. left. by apply Hdom.
  - unfold ack in *. destruct (entities (state σ) !! t) as [b |] eqn:Ht.
    + cbn [state] in *.
      assert (Hents : entities (removePending t (rekey t (toAspect c) (state σ)))
                      = <[canonicalId c := toAspect c]> (delete t (entities (state σ)))).
      { by rewrite entities_removePending, entities_rekey. }
      assert (Hids : ∀ i, i ∈ ids (removePending t (rekey t (toAspect c) (state σ))) →
                          i = canonicalId c ∨ (i ≠ t ∧ i ∈ ids (state σ))).
      { intros i. rewrite ids_removePending, elem_of_ids_rekey.
        intros [? | [-> _]]; [by right | by left]. }
      split; [| split; [| split]]; [| | | exact Hsub'].
      * intros i [Hne Hi]%elem_of_addedIds_removePending.
        rewrite addedIds_rekey in Hi. destruct (Hahead i Hi) as [c' Hc'].
        apply elem_of_cons in Hc' as [[= -> _] | Hc']; [done | by exists c'].
      * intros i Hi. rewrite Hents.
        destruct (decide (i = canonicalId c)) as [-> | Hne].
        -- exists (toAspect c). rewrite lookup_insert_eq. split; [done |].
           right. split; [done |]. split; [by eexists | by eapply HΦ].
        -- destruct (Hids i Hi) as [? | [Hit Hi']]; [done |].
           destruct (Hentry i Hi') as (a & Ha & Hor). exists a.
           rewrite lookup_insert_ne by done. rewrite lookup_delete_ne by done.
           split; [done |]. destruct Hor as [Hp | ?]; [left | by right].
           apply elem_of_addedIds_removePending. by rewrite addedIds_rekey.
      * intros i. rewrite Hents. intros Hi.
        rewrite ids_removePending, elem_of_ids_rekey.
        destruct (decide (i = canonicalId c)) as [-> | Hne].
        -- right. split; [done |]. left. apply Hdom. by rewrite Ht.
        -- rewrite lookup_insert_ne in Hi by done. left.
           destruct (decide (i = t)) as [-> | Hit].
           ++ rewrite lookup_delete_eq in Hi. by destruct Hi.
           ++ rewrite lookup_delete_ne in Hi by done. split; [done | by apply Hdom].
    + split; [| done]. intros i Hi. destruct (Hahead i Hi) as [c' Hc'].
      apply elem_of_cons in Hc' as [[= -> _] | Hc']; [| by exists c'].
      destruct (Hentry t (Hsub t Hi)) as (a & Ha & _). congruence.
Qed.

Lemma awaiting_run (Φ : string → Prop) (es : list Event) σ :
  createsAcked es = true →
  (∀ t c, Ack t c ∈ es → Φ (canonicalId c)) →
  awaiting Φ (state σ) es →
  awaiting Φ (state (run σ es)) [].
Proof.
  revert σ. induction es as [|e es IH]; intros σ Hacked HΦ Hinv; [done |].
  cbn [run foldl]. apply IH.
  - destruct e; try discriminate; cbn in Hacked; [| done].
    by apply andb_true_iff in Hacked as [_ ?].
  - intros t c Hin. apply (HΦ t c). by right.
  - apply awaiting_step; [done | | done].
    intros t c ->. apply (HΦ t c). left.
Qed.

Lemma createsAcked_createThenAck (l : list (string * string * CanonicalAspect)) :
  createsAcked (l ≫= createThenAck) = true.
Proof.
  induction l as [|[[t p] c] l IH]; [done |].
  rewrite bind_cons. cbn. by rewrite bool_decide_eq_true_2.
Qed.

End Engine.

(** ** PendingSet stays inside the EntityStore *)

(** C6. From a session whose PendingSet is included in the ids of its
    EntityStore, every finite sequence of operations (local create, deletion,
    Ack, Reject, RemoteChange) leads to a session with the same inclusion; in
    particular it holds in every session reachable from the initial one. *)
Theorem pendingSubset_invariant (σ : Session) (es : list Event) :
  pendingSubset (state σ) → pendingSubset (state (run σ es)).
Proof.
  revert σ. induction es as [|e es IH]; intros σ Hinv; [done |].
  apply IH. by apply step_pendingSubset.
Qed.

Lemma pendingSubset_invariant_witness :
  pendingSubset (state initialSession)
  ∧ pendingSubset (state (run initialSession sampleTrace)).
Proof.
  assert (H0 : pendingSubset (state initialSession)).
  { intros i Hi. cbn in Hi. by apply not_elem_of_nil in Hi. }
  split; [exact H0 |].
  exact (pendingSubset_invariant initialSession sampleTrace H0).
Defined.

(** ** Stale remote changes *)

(** C4. A RemoteChange, whether it carries an aspect or a deletion, whose
    revision is at most the revision stored for its id leaves the EntityStore
    (id sequence and entities) as it was; the PendingSet is untouched as
    well. *)
Theorem stale_remote_change_noop
        (σ : Session) (b : RemoteBody) (a : CanvasAspect.t) (r : N) :
  entities (state σ) !! bodyId b = Some a →
  CanvasAspect.revision a = Some r →
  (bodyRevision b ≤ r)%N →
  state (step σ (RemoteChange b)) = state σ.
Proof.
  intros Ha Hr Hle. destruct b as [c | i r']; cbn [step bodyId bodyRevision] in *.
  - unfold remoteUpsert. case_bool_decide as Hpend.
    + by destruct (newerThan _ c).
    + unfold newerThan. rewrite Ha. cbn. rewrite Hr.
      rewrite bool_decide_eq_false_2; [done |]. lia.
  - unfold remoteDelete. case_bool_decide as Hpend.
    + by destruct (newerRevisionThan _ r').
    + unfold newerRevisionThan. rewrite Ha. cbn. rewrite Hr.
      rewrite bool_decide_eq_false_2; [done |]. lia.
Qed.

Lemma stale_remote_change_noop_witness :
  state (step sessionAtRevision2 (RemoteChange (aspect (mkCanonical "c-9" 1 "P1"))))
  = state sessionAtRevision2
  ∧ state (step sessionAtRevision2 (RemoteChange (deletion "c-9" 2)))
    = state sessionAtRevision2.
Proof.
  split.
  - apply (stale_remote_change_noop sessionAtRevision2
             (aspect (mkCanonical "c-9" 1 "P1"))
             (toAspect (mkCanonical "c-9" 2 "P2")) 2%N).
    + reflexivity.
    + reflexivity.
    + cbn. lia.
  - apply (stale_remote_change_noop sessionAtRevision2 (deletion "c-9" 2)
             (toAspect (mkCanonical "c-9" 2 "P2")) 2%N).
    + reflexivity.
    + reflexivity.
    + cbn. lia.
Defined.

(** A remote delete that is newer than the stored revision does remove the
    entry. *)
Example newer_remote_delete_removes :
  ids (state (step sessionAtRevision2 (RemoteChange (deletion "c-9" 3)))) = [].
Proof. reflexivity. Qed.

(** ** Pending edits and remote changes *)



(** Every event that changes the entry or the pending status of a pending
    [x] names [x]; a RemoteChange never does. *)
Lemma only_naming_events_resolve (σ : Session) (x : string) (a : CanvasAspect.t) (e : Event) :
  x ∈ addedIds (state σ) →
  entities (state σ) !! x = Some a →
  x ∉ addedIds (state (step σ e)) ∨ entities (state (step σ e)) !! x ≠ Some a →
  names x e = true ∧ ∀ b, e ≠ RemoteChange b.
Proof.
  intros Hpend Hx Hchanged.
  destruct (names x e) eqn:Hn.
  - split; [done |]. intros b ->. discriminate.
  - destruct (step_keeps_pending_edit σ e x a Hn Hpend Hx) as [? ?].
    by destruct Hchanged.
Qed.

(** ** Creates confirmed by their Acks *)

(** C2. Starting from the initial session, after any finite sequence of
    local creates and Acks in which each local create is followed by the Ack
    carrying its tentative id, the PendingSet is empty and the EntityStore
    holds canonical entries only: every listed id is the id of the canonical
    aspect of one of the Acks and holds an aspect keyed by that id and
    carrying a revision, and the dictionary has no key outside the listed
    ids, so no tentative id remains. *)
Theorem creates_then_acks_leave_canonical_only (es : list Event) :
  createsAcked es = true →
  addedIds (state (run initialSession es)) = []
  ∧ canonicalOnly (state (run initialSession es))
  ∧ (∀ i, is_Some (entities (state (run initialSession es)) !! i) →
          i ∈ ids (state (run initialSession es)))
  ∧ (∀ i, i ∈ ids (state (run initialSession es)) →
          ∃ t c, Ack t c ∈ es ∧ i = canonicalId c).
Proof.
  intros Hacked.
  set (Φ := λ i : string, ∃ t c, Ack t c ∈ es ∧ i = canonicalId c).
  assert (H0 : awaiting Φ (state initialSession) es).
  { split; [| split; [| split]].
    - intros i Hi. cbn in Hi. by apply not_elem_of_nil in Hi.
    - intros i Hi. cbn in Hi. by apply not_elem_of_nil in Hi.
    - intros i Hi. cbn in Hi. rewrite lookup_empty in Hi. by destruct Hi.
    - intros i Hi. cbn in Hi. by apply not_elem_of_nil in Hi. }
  destruct (awaiting_run Φ es initialSession Hacked) as (Hahead & Hentry & Hdom & _);
    [| done |].
  { intros t c Hin. by exists t, c. }
  assert (Hnone : ∀ i, i ∉ addedIds (state (run initialSession es))).
  { intros i Hi. destruct (Hahead i Hi) as [c Hc]. by apply not_elem_of_nil in Hc. }
  split; [| split; [| split]].
  - destruct (addedIds (state (run initialSession es))) as [|i pend]; [done |].
    exfalso. apply (Hnone i). left.
  - intros i Hi. destruct (Hentry i Hi) as (a & Ha & [Hp | (? & ? & _)]).
    + by apply Hnone in Hp.
    + by exists a.
  - exact Hdom.
  - intros i Hi. destruct (Hentry i Hi) as (a & Ha & [Hp | (_ & _ & HΦ)]).
    + by apply Hnone in Hp.
    + exact HΦ.
Qed.

Lemma creates_then_acks_leave_canonical_only_witness :
  createsAcked overlappingCreates = true
  ∧ addedIds (state (run initialSession overlappingCreates)) = []
  ∧ ids (state (run initialSession overlappingCreates)) = ["c-9"; "c-10"].
Proof.
  split; [reflexivity |]. split; [| reflexivity].
  apply (creates_then_acks_leave_canonical_only overlappingCreates). reflexivity.
Defined.

(** Creates acknowledged one after the other are one such sequence. *)
Corollary creates_each_acked_at_once (l : list (string * string * CanonicalAspect)) :
  addedIds (state (run initialSession (l ≫= createThenAck))) = []
  ∧ canonicalOnly (state (run initialSession (l ≫= createThenAck))).
Proof.
  set (Φ := λ _ : string, True).
  assert (H0 : awaiting Φ (state initialSession) (l ≫= createThenAck)).
  { split; [| split; [| split]].
    - intros i Hi. cbn in Hi. by apply not_elem_of_nil in Hi.
    - intros i Hi. cbn in Hi. by apply not_elem_of_nil in Hi.
    - intros i Hi. cbn in Hi. rewrite lookup_empty in Hi. by destruct Hi.
    - intros i Hi. cbn in Hi. by apply not_elem_of_nil in Hi. }
  destruct (awaiting_run Φ _ initialSession (createsAcked_createThenAck l))
    as (Hahead & Hentry & _); [done | done |].
  assert (Hnone : ∀ i, i ∉ addedIds (state (run initialSession (l ≫= createThenAck)))).
  { intros i Hi. destruct (Hahead i Hi) as [c Hc]. by apply not_elem_of_nil in Hc. }
  split.
  - destruct (addedIds (state (run initialSession (l ≫= createThenAck))))
      as [|i pend]; [done |].
    exfalso. apply (Hnone i). left.
  - intros i Hi. destruct (Hentry i Hi) as (a & Ha & [Hp | (? & ? & _)]).
    + by apply Hnone in Hp.
    + by exists a.
Qed.

(** The scenario of the specification: [tmp-1] is created with payload [P] and
    acknowledged as [c-9] at revision 1. *)
Example create_tmp1_ack_c9 :
  state (run initialSession
           (createThenAck ("tmp-1", "P", mkCanonical "c-9" 1 "P")))
  = {| ids := ["c-9"];
       entities := {[ "c-9" := CanvasAspect.mk "c-9" (Some 1%N) "P" ]};
       addedIds := [] |}.
Proof. reflexivity. Qed.

(** * Further properties of the selectors *)

Section Find.

Implicit Types (i : string) (a b : CanvasAspect.t).
Implicit Types (l : list (option CanvasAspect.t)).

Lemma passedOver_cons i b l (k : nat) :
  CanvasAspect.id b ≠ i → passedOver i l k → passedOver i (Some b :: l) (S k).
Proof.
  intros Hb Hk [|j] Hj; [by exists b |].
  apply Hk. lia.
Qed.

Lemma passedOver_tail i e l (k : nat) :
  passedOver i (e :: l) (S k) →
  (∃ b, e = Some b ∧ CanvasAspect.id b ≠ i) ∧ passedOver i l k.
Proof.
  intros Hk. split.
  - destruct (Hk 0) as (b & [= ->] & Hb); [lia |]. by exists b.
  - intros j Hj. apply (Hk (S j)). lia.
Qed.

Lemma find_not_null i l : find i l ≠ Normal JsNull.
Proof.
  induction l as [|[b|] l IH]; cbn; [discriminate | | discriminate].
  by case_bool_decide.
Qed.

(** Over a run of ids that each hold an entity carrying that id, [find]
    reaches the entity of any id in the run. *)
Lemma find_listed_id (s : State) i a (js : list string) :
  (∀ j, j ∈ js → ∃ b, entities s !! j = Some b ∧ CanvasAspect.id b = j) →
  i ∈ js →
  entities s !! i = Some a →
  find i ((λ j, entities s !! j) <$> js) = Normal (JsObject a).
Proof.
  induction js as [|j js IH]; intros Hcons Hi Ha.
  - by apply not_elem_of_nil in Hi.
  - destruct (Hcons j) as (b & Hb & Hid); [left |].
    cbn. rewrite Hb. cbn. case_bool_decide as Hji.
    + assert (j = i) as -> by congruence. congruence.
    + apply IH; [| | done].
      * intros k Hk. apply Hcons. by right.
      * apply elem_of_cons in Hi as [-> | ?]; [congruence | done].
Qed.

End Find.

(** X1. When the by-id selector returns an aspect, that aspect sits in the
    all-aspects view, its id field is the requested id, and every earlier
    entry of the view is a defined aspect with another id: the selector
    returns the first match. *)
Theorem selectById_returns_first_match (s : State) (i : string) (a : CanvasAspect.t) :
  selectCanvasAspectById i s = Normal (JsObject a) →
  ∃ k : nat,
    selectAllCanvasAspectItems s !! k = Some (Some a)
    ∧ CanvasAspect.id a = i
    ∧ ∀ j : nat, j < k →
        ∃ b, selectAllCanvasAspectItems s !! j = Some (Some b)
             ∧ CanvasAspect.id b ≠ i.
Proof.
  unfold selectCanvasAspectById, canvasAspectByIdProjector.
  generalize (selectAllCanvasAspectItems s) as l.
  induction l as [|[b|] l IH]; cbn [find]; [discriminate | | discriminate].
  case_bool_decide as Hb.
  - intros [= ->]. exists 0. split; [done |]. split; [done |].
    intros j Hj. lia.
  - intros (k & Hk & Ha & Hpass)%IH. exists (S k).
    split; [done |]. split; [done |]. by apply passedOver_cons.
Qed.

Lemma selectById_returns_first_match_witness :
  ∃ k : nat,
    selectAllCanvasAspectItems storeAB !! k = Some (Some aspectB)
    ∧ CanvasAspect.id aspectB = "b"
    ∧ ∀ j : nat, j < k →
        ∃ b, selectAllCanvasAspectItems storeAB !! j = Some (Some b)
             ∧ CanvasAspect.id b ≠ "b".
Proof.
  apply (selectById_returns_first_match storeAB "b" aspectB). reflexivity.
Defined.

(** X2. The by-id selector raises exactly when the all-aspects view has an
    [undefined] entry that no match precedes: every entry before it is a
    defined aspect with another id.  An [undefined] entry behind the first
    match is never read. *)
Theorem selectById_throws_iff (s : State) (i : string) :
  selectCanvasAspectById i s = Throw TypeError
  ↔ ∃ k : nat,
      selectAllCanvasAspectItems s !! k = Some None
      ∧ ∀ j : nat, j < k →
          ∃ b, selectAllCanvasAspectItems s !! j = Some (Some b)
               ∧ CanvasAspect.id b ≠ i.
Proof.
  unfold selectCanvasAspectById, canvasAspectByIdProjector.
  generalize (selectAllCanvasAspectItems s) as l.
  induction l as [|[b|] l IH]; cbn [find].
  - split; [discriminate |]. by intros (k & Hk & _).
  - case_bool_decide as Hb.
    + split; [discriminate |]. intros ([|k] & Hk & Hpass); [discriminate |].
      apply passedOver_tail in Hpass as [(b' & [= <-] & Hne) _]. done.
    + rewrite IH. split.
      * intros (k & Hk & Hpass). exists (S k). split; [done |].
        by apply passedOver_cons.
      * intros ([|k] & Hk & Hpass); [discriminate |].
        exists k. split; [done |]. by apply passedOver_tail in Hpass as [_ ?].
  - split; [| done]. intros _. exists 0. split; [done |]. intros j Hj. lia.
Qed.

Lemma selectById_throws_iff_witness :
  selectCanvasAspectById "zz" storeDanglingSecond = Throw TypeError
  ∧ selectCanvasAspectById "a" storeDanglingSecond = Normal (JsObject aspectA).
Proof.
  split; [| reflexivity].
  apply (proj2 (selectById_throws_iff storeDanglingSecond "zz")).
  exists 1. split; [reflexivity |].
  intros [|j] Hj; [| lia].
  exists aspectA. split; [reflexivity | discriminate].
Defined.

(** X3. Through the exported selector the [null] branch of the projector is
    never taken: for every root object, with or without the feature slice,
    the by-id selector returns an aspect or [undefined], or raises; it never
    returns [null]. *)
Theorem selectById_never_null (r : Root.AppState) (i : string) :
  Root.selectCanvasAspectById i r ≠ Normal JsNull.
Proof.
  unfold Root.selectCanvasAspectById, Root.selectAllCanvasAspectItems.
  destruct (Root.selectCanvasAspectState r) as [s |]; [| discriminate].
  apply find_not_null.
Qed.

(** X4. On a store whose listed ids each hold an entity carrying that id, the
    by-id selector agrees with the dictionary: for a listed id it returns the
    entity stored under that id. *)
Theorem selectById_agrees_with_entities (s : State) (i : string) (a : CanvasAspect.t) :
  storeConsistent s →
  i ∈ ids s →
  entities s !! i = Some a →
  selectCanvasAspectById i s = Normal (JsObject a).
Proof.
  intros Hcons Hi Ha. unfold selectCanvasAspectById, canvasAspectByIdProjector.
  by apply find_listed_id.
Qed.

Lemma selectById_agrees_with_entities_witness :
  selectCanvasAspectById "b" storeAB = Normal (JsObject aspectB).
Proof.
  apply (selectById_agrees_with_entities storeAB "b" aspectB).
  - exact storeAB_consistent.
  - cbn. right. left.
  - reflexivity.
Defined.

(** X5. On such a store an id that is not listed is not found, whether or not
    the dictionary holds an entity under it: the selector returns
    [undefined]. *)
Theorem selectById_unlisted_id (s : State) (i : string) :
  storeConsistent s →
  i ∉ ids s →
  selectCanvasAspectById i s = Normal JsUndefined.
Proof.
  intros Hcons Hi. unfold selectCanvasAspectById, canvasAspectByIdProjector.
  apply find_no_match. unfold selectAllCanvasAspectItems.
  apply Forall_fmap, Forall_forall. intros j Hj.
  destruct (Hcons j Hj) as (b & Hb & Hid). exists b. split; [done |].
  rewrite Hid. by intros ->.
Qed.

Lemma selectById_unlisted_id_witness :
  entities storeMissingPending !! "a" = Some aspectA
  ∧ selectCanvasAspectById "gone" storeMissingPending = Normal JsUndefined.
Proof.
  split; [reflexivity |].
  apply (selectById_unlisted_id storeMissingPending "gone").
  - intros j Hj%list_elem_of_singleton. subst j. by exists aspectA.
  - cbn. intros Hj%list_elem_of_singleton. discriminate.
Defined.

(** X6. Whatever the order of [addedIds]: on a store with duplicate-free
    [ids] and [addedIds], listed ids each holding an entity carrying that id,
    and every pending id listed, the pending-aspects view is a permutation of
    the all-aspects view restricted to the aspects whose id is pending. *)
Theorem selectAdded_permutation_of_pending (s : State) :
  NoDup (ids s) →
  NoDup (addedIds s) →
  storeConsistent s →
  pendingSubset s →
  selectAddedCanvasAspects s ≡ₚ pendingAspectsSpec s.
Proof.
  intros Hnd Hnda Hcons Hsub.
  rewrite pendingAspectsSpec_filter_ids by done.
  unfold selectAddedCanvasAspects. apply fmap_Permutation.
  apply NoDup_Permutation; [done | by apply NoDup_filter |].
  intros j. rewrite (list_elem_of_filter (λ k, k ∈ addedIds s)). split.
  - intros Hj. split; [done | by apply Hsub].
  - by intros [? _].
Qed.

Lemma storeBA_consistent : storeConsistent storeBA.
Proof. exact storeAB_consistent. Defined.

Lemma selectAdded_permutation_of_pending_witness :
  selectAddedCanvasAspects storeBA ≡ₚ pendingAspectsSpec storeBA.
Proof.
  apply (selectAdded_permutation_of_pending storeBA).
  - cbn. apply NoDup_cons. split.
    + intros H%list_elem_of_singleton. discriminate.
    + apply NoDup_singleton.
  - cbn. apply NoDup_cons. split.
    + intros H%list_elem_of_singleton. discriminate.
    + apply NoDup_singleton.
  - exact storeBA_consistent.
  - intros j Hj. cbn in *.
    apply elem_of_cons in Hj as [-> | Hj]; [right; left |].
    apply list_elem_of_singleton in Hj as ->. left.
Defined.

(** X7. The two derived views agree with the by-id selector: on a store whose
    listed ids each hold an entity carrying that id, the by-id selector at a
    pending, listed id returns an aspect that the pending-aspects view
    contains. *)
Theorem selectById_of_pending_in_selectAdded (s : State) (i : string) :
  storeConsistent s →
  i ∈ addedIds s →
  i ∈ ids s →
  ∃ a, selectCanvasAspectById i s = Normal (JsObject a)
       ∧ CanvasAspect.id a = i
       ∧ Some a ∈ selectAddedCanvasAspects s.
Proof.
  intros Hcons Hpend Hi. destruct (Hcons i Hi) as (a & Ha & Hid).
  exists a. split; [| split; [done |]].
  - unfold selectCanvasAspectById, canvasAspectByIdProjector.
    by apply find_listed_id.
  - unfold selectAddedCanvasAspects. rewrite <- Ha.
    by apply (list_elem_of_fmap_2 (λ j, entities s !! j)).
Qed.

Lemma selectById_of_pending_in_selectAdded_witness :
  ∃ a, selectCanvasAspectById "a" storeAB = Normal (JsObject a)
       ∧ CanvasAspect.id a = "a"
       ∧ Some a ∈ selectAddedCanvasAspects storeAB.
Proof.
  apply (selectById_of_pending_in_selectAdded storeAB "a").
  - exact storeAB_consistent.
  - cbn. left.
  - cbn. left.
Defined.

(** X8. When every pending id is listed, each entry of the pending-aspects
    view, defined or not, also occurs in the all-aspects view. *)
Theorem selectAdded_within_selectAll (s : State) (e : option CanvasAspect.t) :
  pendingSubset s →
  e ∈ selectAddedCanvasAspects s →
  e ∈ selectAllCanvasAspectItems s.
Proof.
  intros Hsub (j & -> & Hj)%list_elem_of_fmap.
  apply (list_elem_of_fmap_2 (λ k, entities s !! k)). by apply Hsub.
Qed.

Lemma selectAdded_within_selectAll_witness :
  Some aspectA ∈ selectAllCanvasAspectItems storeAB.
Proof.
  apply (selectAdded_within_selectAll storeAB (Some aspectA)).
  - intros j Hj%list_elem_of_singleton. subst j. cbn. left.
  - cbn. left.
Defined.
